(** * vuex-tstore: mutation and getter proxies over a Vuex store

    A shallow embedding of [wrapMutations] (src/mutations.ts, lines 1-123)
    and [wrapGetters] (the getter module, lines 124-245 of the same source
    file) together with the part of JavaScript and
    of the store engine that these two functions rely on: property tables
    with [Object.defineProperty], the store's [commit], [subscribe] and
    [getters].  Everything that touches the store is written in a state and
    error monad over the store, so that what a call does to the store (the
    commits it issues, the listeners it runs) can be read from the final
    state. *)

From stdpp Require Import base option list strings gmap.
From Stdlib Require Import ZArith Lia.

Local Open Scope string_scope.
Local Open Scope list_scope.
#[local] Set Warnings "-register-all".

(** ** JavaScript values *)

(** Payloads, getter results and property values ([any] in the source). *)
Inductive value : Type :=
| VUndefined
| VBool (b : bool)
| VNum (n : Z)
| VStr (s : string)
| VObj (fields : list (string * value)).

(** Vuex's [CommitOptions]: [{ silent?: boolean; root?: boolean }]. *)
Record CommitOptions : Type := mkCommitOptions {
  silent : option bool;
  root : option bool
}.

(** A raw handler (a mutation or a getter function) as the wrappers see it:
    they never apply it, they only hand it to [qualifyKey], which inspects
    its declared name.  An anonymous function has the empty name. *)
Record handler : Type := mkHandler { fn_name : string }.

(** What can be thrown. [TypeError] is the engine's own exception (a
    property that cannot be redefined, a write to a getter-only property in
    strict code); [InvalidHandlerIdentity] is raised by [qualifyKey]. *)
Inductive error : Type :=
| InvalidHandlerIdentity
| TypeError.

(** ** The store *)

(** A listener is an opaque callback; the model sees it only through the
    calls it receives, and its body does not call back into the store. *)
Definition listener : Type := nat.

(** The one callback the wrappers hand to [store.subscribe]
    (mutations.ts, lines 107-111):
    [({ type, payload }) => { if (type === mutationKey) handler.call(store, payload) }]
    as a closure over [mutationKey] and [handler]. *)
Inductive subscriber : Type :=
| Filter (mutationKey : string) (handler : listener).

(** What the store has been asked to do, oldest first. *)
Inductive event : Type :=
| Committed (type : string) (payload : value) (options : option CommitOptions)
| Invoked (handler : listener) (payload : value).

(** Modelled from the spec: the store engine (Vuex) is an external
    collaborator that is not among the sources; section 6 of the
    specification gives its contract: [getters] is a live mapping from
    qualified key to current value, [subscribe] registers a callback that
    runs synchronously on every commit and returns a disposer removing that
    callback, [commit] dispatches under a key.  [trace] records what
    happened. *)
Record Store : Type := mkStore {
  getters : gmap string value;
  subscribers : list (nat * subscriber);
  next_subscription : nat;
  trace : list event
}.

Definition empty_store : Store :=
  {| getters := ∅; subscribers := []; next_subscription := 0; trace := [] |}.

(** ** Computations over the store that may throw *)

(** The [store] argument of [wrapMutations] and [wrapGetters], and the
    [store] their closures capture, is the state threaded through [M]. *)

Definition M (A : Type) : Type := Store -> (error + A) * Store.

Definition ret {A} (a : A) : M A := fun s => (inr a, s).
Definition bind {A B} (m : M A) (f : A -> M B) : M B :=
  fun s => match m s with
           | (inr a, s') => f a s'
           | (inl e, s') => (inl e, s')
           end.
Definition lift {A} (r : error + A) : M A := fun s => (r, s).

Declare Scope store_scope.
Delimit Scope store_scope with store.
Notation "'let*' x ':=' m 'in' k" := (bind m (fun x => k))
  (at level 10, x name, m at level 100, k at level 200) : store_scope.
Local Open Scope store_scope.

(** ** Store operations *)

(** Running the subscription callback on a committed [{ type, payload }]. *)
Definition run_subscriber (sub : subscriber) (type : string) (payload : value)
  : list event :=
  match sub with
  | Filter mutationKey handler =>
      if String.eqb type mutationKey then [Invoked handler payload] else []
  end.

Definition notify (subs : list (nat * subscriber)) (type : string)
  (payload : value) : list event :=
  flat_map (fun entry => run_subscriber (snd entry) type payload) subs.

(** Modelled from the spec: [store.commit(type, payload, options)] of the
    store engine, section 6: the commit, then every subscriber in
    subscription order, synchronously, before the call returns. *)
Definition store_commit (type : string) (payload : value)
  (options : option CommitOptions) : M unit :=
  fun s =>
    (inr tt,
     {| getters := getters s;
        subscribers := subscribers s;
        next_subscription := next_subscription s;
        trace := trace s ++ Committed type payload options
                       :: notify (subscribers s) type payload |}).

(** The disposer returned by [store.subscribe]. *)
Inductive disposer : Type := Disposer (subscription : nat).

(** Modelled from the spec: [store.subscribe(callback)] of the store
    engine, section 6: the callback, a fresh closure, joins the subscription
    list and its disposer is returned. *)
Definition store_subscribe (sub : subscriber) : M disposer :=
  fun s =>
    (inr (Disposer (next_subscription s)),
     {| getters := getters s;
        subscribers := subscribers s ++ [(next_subscription s, sub)];
        next_subscription := S (next_subscription s);
        trace := trace s |}).

(** Modelled from the spec: calling a disposer of the store engine removes
    exactly the subscription that produced it. *)
Definition dispose (d : disposer) : M unit :=
  fun s =>
    let 'Disposer id := d in
    (inr tt,
     {| getters := getters s;
        subscribers :=
          List.filter (fun entry => negb (Nat.eqb (fst entry) id)) (subscribers s);
        next_subscription := next_subscription s;
        trace := trace s |}).

(** Modelled from the spec: [store.getters[key]] of the store engine, a
    live mapping read at each access; a missing key of a JavaScript object
    reads as [undefined]. *)
Definition store_getters (key : string) : M value :=
  fun s => (inr (default VUndefined (getters s !! key)), s).

(** The store engine recomputing a derived value (outside the wrappers). *)
Definition set_getter (key : string) (v : value) (s : Store) : Store :=
  {| getters := <[key := v]> (getters s);
     subscribers := subscribers s;
     next_subscription := next_subscription s;
     trace := trace s |}.

Definition delete_getter (key : string) (s : Store) : Store :=
  {| getters := delete key (getters s);
     subscribers := subscribers s;
     next_subscription := next_subscription s;
     trace := trace s |}.

(** ** Objects and [Object.defineProperty] *)

(** An own property.  [G] is the type of getter closures; no property of
    the program has a setter. *)
Inductive property (G : Type) : Type :=
| DataProperty (v : value) (writable configurable : bool)
| AccessorProperty (get : G) (configurable : bool).
Arguments DataProperty {G} v writable configurable.
Arguments AccessorProperty {G} get configurable.

Definition configurable {G} (p : property G) : bool :=
  match p with
  | DataProperty _ _ c => c
  | AccessorProperty _ c => c
  end.

(** Own properties in creation order. *)
Definition object (G : Type) : Type := list (string * property G).

Fixpoint get_own {G} (o : object G) (key : string) : option (property G) :=
  match o with
  | [] => None
  | (k, p) :: rest => if String.eqb k key then Some p else get_own rest key
  end.

Fixpoint replace_own {G} (o : object G) (key : string) (p : property G)
  : object G :=
  match o with
  | [] => []
  | (k, q) :: rest =>
      if String.eqb k key then (k, p) :: rest
      else (k, q) :: replace_own rest key p
  end.

(** [Object.defineProperty(o, key, { get })] on an extensible object: a new
    property is created neither enumerable nor configurable; a configurable
    one becomes an accessor with this getter and stays configurable; a
    non-configurable one cannot take a different getter. *)
Definition defineProperty {G} (o : object G) (key : string) (get : G)
  : error + object G :=
  match get_own o key with
  | None => inr (o ++ [(key, AccessorProperty get false)])
  | Some p =>
      if configurable p then inr (replace_own o key (AccessorProperty get true))
      else inl TypeError
  end.

(** [o[key] = v].  A property without setter, or a read-only one, refuses
    the write: strict code gets a [TypeError], sloppy code carries on with
    the object unchanged.  A missing key is created (inherited properties
    are not modelled). *)
Definition set_property {G} (strict : bool) (o : object G) (key : string)
  (v : value) : error + object G :=
  match get_own o key with
  | Some (AccessorProperty _ _) => if strict then inl TypeError else inr o
  | Some (DataProperty _ writable c) =>
      if writable then inr (replace_own o key (DataProperty v true c))
      else if strict then inl TypeError else inr o
  | None => inr (o ++ [(key, DataProperty v true true)])
  end.

(** ** util.ts *)

(** Modelled from the spec: [qualifyKey] is imported from [./util], which is
    not among the sources.  Section 4.1: the identifier is returned
    unchanged when the namespace is empty, otherwise
    [namespace + "/" + identifier]. *)
Definition qualify (identifier namespace : string) : string :=
  if String.eqb namespace "" then identifier
  else namespace +:+ "/" +:+ identifier.

(** Modelled from the spec: the call [qualifyKey(handler, namespace)] of the
    sources.  Sections 3 and 4.1: a handler's declared name is its
    identifier, and the call fails with [InvalidHandlerIdentity] when no
    identifier can be derived (an anonymous handler). *)
Definition qualifyKey (h : handler) (namespace : string) : error + string :=
  if String.eqb (fn_name h) "" then inl InvalidHandlerIdentity
  else inr (qualify (fn_name h) namespace).

(** ** mutations.ts *)

(** The [deferred] closure of lines 101-111; [commit] and [store] are the
    ones of the enclosing call, [mutationKey] is its own. *)
Record deferred : Type := mkDeferred { mutationKey : string }.

(** The function the reduction starts from and returns (lines 119-121):
    [(type, payload, options) => store.commit(type, payload, options)].
    [invoke] is what calling it does; its own properties are its [length]
    and [name], then whatever [defineProperty] adds, and the getters added
    return a [deferred]. *)
Record CombinedCommitter : Type := mkCommitter {
  invoke : string -> value -> option CommitOptions -> M unit;
  own : object deferred
}.

Definition seed : CombinedCommitter :=
  {| invoke := fun type payload options => store_commit type payload options;
     own := [("length", DataProperty (VNum 3) false true);
             ("name", DataProperty (VStr "") false true)] |}.

(** [deferred(payload)], lines 101-104: [commit] is the object under
    construction, which is also the object returned. *)
Definition call (commit : CombinedCommitter) (d : deferred) (payload : value)
  : M unit :=
  invoke commit (mutationKey d) payload
    (Some {| silent := None; root := Some true |}).

(** [deferred.listen(handler)], lines 106-111. *)
Definition listen (d : deferred) (handler : listener) : M disposer :=
  store_subscribe (Filter (mutationKey d) handler).

(** The reducer of lines 92-118 folded over [Object.entries(mutations)];
    [Object.defineProperty] updates [commit] in place and returns it. *)
Fixpoint wrapMutations_reduce (namespace : string)
  (entries : list (string * handler)) (commit : CombinedCommitter)
  : M CombinedCommitter :=
  match entries with
  | [] => ret commit
  | (key, mutation) :: rest =>
      let* mutationKey := lift (qualifyKey mutation namespace) in
      let deferred := {| mutationKey := mutationKey |} in
      let* o := lift (defineProperty (own commit) key deferred) in
      wrapMutations_reduce namespace rest
        {| invoke := invoke commit; own := o |}
  end.

Definition wrapMutations (namespace : string)
  (mutations : list (string * handler)) : M CombinedCommitter :=
  wrapMutations_reduce namespace mutations seed.

(** Reading [wrapper[key]]: the getter of lines 114-116 returns the
    [deferred]; [length] and [name] are plain data. *)
Definition accessor (c : CombinedCommitter) (key : string) : option deferred :=
  match get_own (own c) key with
  | Some (AccessorProperty d _) => Some d
  | _ => None
  end.

(** ** The getter module (lines 124-245) *)

(** The [get()] closure of lines 238-240 over [getter] and [namespace]. *)
Record get_closure : Type := mkGet {
  getter : handler;
  namespace : string
}.

(** [return store.getters[qualifyKey(getter, namespace)]]. *)
Definition run_get (g : get_closure) : M value :=
  let* key := lift (qualifyKey (getter g) (namespace g)) in
  store_getters key.

(** The loop of lines 236-242 over [Object.entries(getters)]. *)
Fixpoint wrapGetters_loop (namespace : string)
  (entries : list (string * handler)) (result : object get_closure)
  : M (object get_closure) :=
  match entries with
  | [] => ret result
  | (key, getter) :: rest =>
      let* result' :=
        lift (defineProperty result key
                {| getter := getter; namespace := namespace |}) in
      wrapGetters_loop namespace rest result'
  end.

Definition wrapGetters (getters : list (string * handler))
  (namespace : string) : M (object get_closure) :=
  wrapGetters_loop namespace getters [].

(** Reading [wrapped[key]] for an own property; [None] when [key] is not an
    own property (inherited properties are not modelled). *)
Definition read (o : object get_closure) (key : string) : option (M value) :=
  match get_own o key with
  | Some (AccessorProperty g _) => Some (run_get g)
  | Some (DataProperty v _ _) => Some (ret v)
  | None => None
  end.

(** [wrapped[key] = v], from strict or from sloppy code. *)
Definition write (strict : bool) (o : object get_closure) (key : string)
  (v : value) : M (object get_closure) :=
  lift (set_property strict o key v).

(** ** Reading the trace *)

(** The [store.commit] calls recorded in a trace. *)
Fixpoint commits (evs : list event)
  : list (string * value * option CommitOptions) :=
  match evs with
  | [] => []
  | Committed type payload options :: rest =>
      (type, payload, options) :: commits rest
  | Invoked _ _ :: rest => commits rest
  end.

(** The payloads a listener was invoked with. *)
Fixpoint calls_of (L : listener) (evs : list event) : list value :=
  match evs with
  | [] => []
  | Invoked L' payload :: rest =>
      if Nat.eqb L' L then payload :: calls_of L rest else calls_of L rest
  | Committed _ _ _ :: rest => calls_of L rest
  end.

(** How many times [L] is currently registered on key [K]. *)
Fixpoint registrations (K : string) (L : listener)
  (subs : list (nat * subscriber)) : nat :=
  match subs with
  | [] => 0
  | (_, Filter K' L') :: rest =>
      if String.eqb K K' && Nat.eqb L' L then S (registrations K L rest)
      else registrations K L rest
  end.

(** Every registration of [L] sits on key [K]. *)
Definition listens_only_on (K : string) (L : listener) (s : Store) : Prop :=
  forall id K', In (id, Filter K' L) (subscribers s) -> K' = K.

(** ** Scripts of store traffic *)

(** What the code around the wrappers may do to the store between two
    points of interest. *)
Inductive action : Type :=
| Commit (type : string) (payload : value) (options : option CommitOptions)
| Call (d : deferred) (payload : value)
| Listen (d : deferred) (handler : listener)
| Dispose (d : disposer)
| SetGetter (key : string) (v : value).

Definition perform (w : CombinedCommitter) (a : action) (s : Store) : Store :=
  match a with
  | Commit type payload options => snd (invoke w type payload options s)
  | Call d payload => snd (call w d payload s)
  | Listen d handler => snd (listen d handler s)
  | Dispose d => snd (dispose d s)
  | SetGetter key v => set_getter key v s
  end.

Definition run (w : CombinedCommitter) (script : list action) (s : Store)
  : Store :=
  fold_left (fun s a => perform w a s) script s.

(** A script keeps [L] on [K] when it registers [L] on no other key. *)
Definition keeps (K : string) (L : listener) (a : action) : Prop :=
  match a with
  | Listen d handler => handler = L -> mutationKey d = K
  | _ => True
  end.

(** ** Proof devices *)

(** A run of [defineProperty] calls on one object, first to last; both
    wrappers are such a run once the getters to install are known. *)
Fixpoint define_all {G} (o : object G) (defs : list (string * G))
  : error + object G :=
  match defs with
  | [] => inr o
  | (key, get) :: rest =>
      match defineProperty o key get with
      | inr o' => define_all o' rest
      | inl e => inl e
      end
  end.

(** A property that [defineProperty] would refuse to touch. *)
Definition is_frozen {G} (o : object G) (key : string) : bool :=
  match get_own o key with
  | Some p => negb (configurable p)
  | None => false
  end.

(** Handlers whose identifier can be derived. *)
Definition named (h : handler) : Prop := fn_name h <> "".

Definition deferred_of (namespace : string) (entry : string * handler)
  : string * deferred :=
  (fst entry, {| mutationKey := qualify (fn_name (snd entry)) namespace |}).

Definition get_of (namespace : string) (entry : string * handler)
  : string * get_closure :=
  (fst entry, {| getter := snd entry; namespace := namespace |}).

(** The property table a run of [defineProperty] calls builds on keys that
    are all new: one accessor per definition, none configurable, in order. *)
Definition installed {G} (defs : list (string * G)) : object G :=
  map (fun d => (fst d, AccessorProperty (snd d) false)) defs.

(** The [store.commit] calls a script asks for, in order. *)
Fixpoint script_commits (script : list action)
  : list (string * value * option CommitOptions) :=
  match script with
  | [] => []
  | Commit type payload options :: rest =>
      (type, payload, options) :: script_commits rest
  | Call d payload :: rest =>
      (mutationKey d, payload, Some {| silent := None; root := Some true |})
      :: script_commits rest
  | _ :: rest => script_commits rest
  end.

(** Every subscription of the store was handed out by [store_subscribe]:
    its number lies below the next one. *)
Definition fresh_ids (s : Store) : Prop :=
  Forall (fun entry => fst entry < next_subscription s) (subscribers s).

(** ** The scenarios of section 8 of the specification *)

Definition addItem : handler := {| fn_name := "addItem" |}.
Definition total : handler := {| fn_name := "total" |}.

(** [function () {}], a handler without a name. *)
Definition anonymous : handler := {| fn_name := "" |}.

(** [{ addItem }] wrapped under the namespace ["cart"]. *)
Definition cart_mutations : list (string * handler) := [("addItem", addItem)].

Definition cart_wrapper : CombinedCommitter :=
  {| invoke := fun type payload options => store_commit type payload options;
     own := [("length", DataProperty (VNum 3) false true);
             ("name", DataProperty (VStr "") false true);
             ("addItem",
              AccessorProperty {| mutationKey := "cart/addItem" |} false)] |}.

(** [{ total }] wrapped under the empty namespace. *)
Definition root_getters : list (string * handler) := [("total", total)].

Definition root_wrapped : object get_closure :=
  [("total", AccessorProperty {| getter := total; namespace := "" |} false)].

(** [{ add: addItem, push: addItem }]: two properties, one declared name. *)
Definition aliased_mutations : list (string * handler) :=
  [("add", addItem); ("push", addItem)].

Definition item : value := VObj [("id", VNum 1)].

(** [{ sum: total }]: the property is not named after the function. *)
Definition aliased_getters : list (string * handler) := [("sum", total)].

(** * Properties *)

(** ** Strings *)

Lemma eqb_false_ne (a b : string) : String.eqb a b = false <-> a <> b.
Proof. apply String.eqb_neq. Qed.

Lemma append_inj_l (p a b : string) : p +:+ a = p +:+ b -> a = b.
Proof.
  induction p as [|c p IH]; simpl; intros H; [exact H|].
  injection H as H. auto.
Qed.

Lemma qualify_inj (a b N : string) : qualify a N = qualify b N -> a = b.
Proof.
  unfold qualify. destruct (String.eqb N ""); [auto|].
  intros H. apply append_inj_l in H. now apply append_inj_l in H.
Qed.

(** ** Property tables *)

Section Objects.
Context {G : Type}.
Implicit Types (o : object G) (p : property G) (key : string) (get : G).

Lemma get_own_app o o' key :
  get_own (o ++ o') key =
  match get_own o key with Some p => Some p | None => get_own o' key end.
Proof.
  induction o as [|[k q] o IH]; simpl; [reflexivity|].
  destruct (String.eqb k key); [reflexivity|apply IH].
Qed.

Lemma get_own_replace_eq o key p q :
  get_own o key = Some q -> get_own (replace_own o key p) key = Some p.
Proof.
  induction o as [|[k r] o IH]; simpl; [discriminate|].
  destruct (String.eqb k key) eqn:E; simpl; rewrite E; auto.
Qed.

Lemma get_own_replace_ne o key key' p :
  key' <> key -> get_own (replace_own o key p) key' = get_own o key'.
Proof.
  intros Hne. induction o as [|[k r] o IH]; simpl; [reflexivity|].
  destruct (String.eqb k key) eqn:E; simpl.
  - apply String.eqb_eq in E. subst k.
    destruct (String.eqb key key') eqn:E'; [|reflexivity].
    apply String.eqb_eq in E'. congruence.
  - destruct (String.eqb k key'); [reflexivity|apply IH].
Qed.

Lemma defineProperty_own o o' key get :
  defineProperty o key get = inr o' ->
  exists c, get_own o' key = Some (AccessorProperty get c).
Proof.
  unfold defineProperty. destruct (get_own o key) as [p|] eqn:E.
  - destruct (configurable p); [|discriminate].
    intros [= <-]. exists true. eapply get_own_replace_eq; eauto.
  - intros [= <-]. exists false. rewrite get_own_app, E. simpl.
    now rewrite String.eqb_refl.
Qed.

Lemma defineProperty_other o o' key key' get :
  defineProperty o key get = inr o' -> key' <> key ->
  get_own o' key' = get_own o key'.
Proof.
  unfold defineProperty. intros H Hne.
  destruct (get_own o key) as [p|] eqn:E.
  - destruct (configurable p); [|discriminate].
    injection H as <-. now apply get_own_replace_ne.
  - injection H as <-. rewrite get_own_app. simpl.
    destruct (String.eqb key key') eqn:E'.
    + apply String.eqb_eq in E'. congruence.
    + now destruct (get_own o key').
Qed.

Lemma defineProperty_ok o key get :
  is_frozen o key = false -> exists o', defineProperty o key get = inr o'.
Proof.
  unfold is_frozen, defineProperty. destruct (get_own o key) as [p|].
  - destruct (configurable p); [eauto|discriminate].
  - eauto.
Qed.

Lemma defineProperty_fresh o key get :
  get_own o key = None ->
  defineProperty o key get = inr (o ++ [(key, AccessorProperty get false)]).
Proof. unfold defineProperty. now intros ->. Qed.

Lemma define_all_other o o' defs key :
  define_all o defs = inr o' -> ~ In key (map fst defs) ->
  get_own o' key = get_own o key.
Proof.
  revert o. induction defs as [|[k g] defs IH]; simpl; intros o H Hn.
  - now injection H as <-.
  - destruct (defineProperty o k g) as [e|o1] eqn:E; [discriminate|].
    rewrite (IH _ H) by tauto.
    eapply defineProperty_other; eauto.
Qed.

Lemma define_all_own o o' defs key get :
  NoDup (map fst defs) -> define_all o defs = inr o' ->
  In (key, get) defs ->
  exists c, get_own o' key = Some (AccessorProperty get c).
Proof.
  revert o. induction defs as [|[k g] defs IH]; simpl; intros o Hnd H Hin.
  - contradiction.
  - apply NoDup_cons in Hnd as [Hk Hnd].
    destruct (defineProperty o k g) as [e|o1] eqn:E; [discriminate|].
    destruct Hin as [[= -> ->]|Hin].
    + rewrite (define_all_other _ _ _ _ H).
      * eapply defineProperty_own; eauto.
      * now rewrite <- list_elem_of_In.
    + eauto.
Qed.

Lemma define_all_ok o defs :
  NoDup (map fst defs) ->
  (forall key, In key (map fst defs) -> is_frozen o key = false) ->
  exists o', define_all o defs = inr o'.
Proof.
  revert o. induction defs as [|[k g] defs IH]; simpl; intros o Hnd Hf.
  - eauto.
  - apply NoDup_cons in Hnd as [Hk Hnd].
    destruct (defineProperty_ok o k g) as [o1 E]; [auto|].
    rewrite E. apply IH; [assumption|].
    intros key Hin. unfold is_frozen.
    rewrite (defineProperty_other _ _ _ _ _ E).
    + apply Hf. auto.
    + intros ->. apply Hk. now rewrite list_elem_of_In.
Qed.
End Objects.

(** Closed goals [NoDup keys] over a literal handler map. *)
Ltac distinct_keys := apply (bool_decide_unpack _); vm_compute; exact I.

(** ** The two wrappers as runs of [defineProperty] *)

Lemma qualifyKey_named (h : handler) (N : string) :
  named h -> qualifyKey h N = inr (qualify (fn_name h) N).
Proof.
  unfold named, qualifyKey. intros Hn.
  apply eqb_false_ne in Hn. now rewrite Hn.
Qed.

Lemma qualifyKey_anonymous (h : handler) (N : string) :
  fn_name h = "" -> qualifyKey h N = inl InvalidHandlerIdentity.
Proof. unfold qualifyKey. now intros ->. Qed.

Lemma qualifyKey_inr (h : handler) (N K : string) :
  qualifyKey h N = inr K -> named h /\ K = qualify (fn_name h) N.
Proof.
  unfold qualifyKey, named. destruct (String.eqb (fn_name h) "") eqn:E.
  - discriminate.
  - intros [= <-]. split; [now apply eqb_false_ne|reflexivity].
Qed.

(** Neither wrapper touches the store while it builds its object. *)
Lemma wrapMutations_reduce_store N entries c s :
  snd (wrapMutations_reduce N entries c s) = s.
Proof.
  revert c. induction entries as [|[key mutation] rest IH]; intros c; simpl.
  - reflexivity.
  - unfold bind, lift. destruct (qualifyKey mutation N); [reflexivity|].
    destruct (defineProperty (own c) key _); [reflexivity|]. apply IH.
Qed.

Lemma wrapGetters_loop_store N entries o s :
  snd (wrapGetters_loop N entries o s) = s.
Proof.
  revert o. induction entries as [|[key g] rest IH]; intros o; simpl.
  - reflexivity.
  - unfold bind, lift. destruct (defineProperty o key _); [reflexivity|].
    apply IH.
Qed.

(** The getter wrapper is exactly a run of definitions. *)
Lemma wrapGetters_loop_define_all N entries o s :
  wrapGetters_loop N entries o s =
  (define_all o (map (get_of N) entries), s).
Proof.
  revert o. induction entries as [|[key g] rest IH]; intros o; simpl.
  - reflexivity.
  - unfold bind, lift. simpl.
    destruct (defineProperty o key _); [reflexivity|]. apply IH.
Qed.

(** A successful mutation wrap went through every entry: every handler is
    named, and the object is the run of definitions on the seed. *)
Lemma wrapMutations_reduce_inr N entries c w s s' :
  wrapMutations_reduce N entries c s = (inr w, s') ->
  Forall (fun entry => named (snd entry)) entries /\
  invoke w = invoke c /\
  define_all (own c) (map (deferred_of N) entries) = inr (own w) /\
  s' = s.
Proof.
  revert c. induction entries as [|[key mutation] rest IH]; intros c; simpl.
  - unfold ret. intros [= <- <-]. auto.
  - unfold bind, lift.
    destruct (qualifyKey mutation N) as [e|K] eqn:EK; [discriminate|].
    apply qualifyKey_inr in EK as [Hn ->].
    destruct (defineProperty (own c) key _) as [e|o] eqn:ED; [discriminate|].
    intros H. apply IH in H as (Hall & Hinv & Hdef & ->). simpl in *.
    repeat split; auto.
Qed.

(** Named handlers under distinct keys, none of them frozen on the object:
    the mutation wrap succeeds. *)
Lemma wrapMutations_reduce_ok N entries c s :
  NoDup (map fst entries) ->
  Forall (fun entry => named (snd entry)) entries ->
  (forall key, In key (map fst entries) -> is_frozen (own c) key = false) ->
  exists w, wrapMutations_reduce N entries c s = (inr w, s).
Proof.
  revert c. induction entries as [|[key mutation] rest IH];
    intros c Hnd Hall Hf; simpl.
  - unfold ret. eauto.
  - apply NoDup_cons in Hnd as [Hk Hnd].
    apply Forall_cons in Hall as [Hn Hall]. simpl in *.
    unfold bind, lift. rewrite (qualifyKey_named _ _ Hn).
    destruct (defineProperty_ok (own c) key
                {| mutationKey := qualify (fn_name mutation) N |})
      as [o E]; [auto|].
    rewrite E. apply IH; auto. simpl. intros k Hin.
    unfold is_frozen. rewrite (defineProperty_other _ _ _ _ _ E).
    + apply Hf. auto.
    + intros ->. apply Hk. now rewrite list_elem_of_In.
Qed.

(** An anonymous handler anywhere in the map makes the mutation wrap throw. *)
Lemma wrapMutations_reduce_anonymous N entries c s key h :
  NoDup (map fst entries) ->
  (forall key, In key (map fst entries) -> is_frozen (own c) key = false) ->
  In (key, h) entries -> fn_name h = "" ->
  wrapMutations_reduce N entries c s = (inl InvalidHandlerIdentity, s).
Proof.
  revert c. induction entries as [|[k mutation] rest IH];
    intros c Hnd Hf Hin Hanon; simpl.
  - contradiction.
  - apply NoDup_cons in Hnd as [Hk Hnd]. unfold bind, lift.
    destruct (qualifyKey mutation N) as [e|K] eqn:EK.
    + unfold qualifyKey in EK.
      destruct (String.eqb (fn_name mutation) ""); congruence.
    + destruct Hin as [[= -> ->]|Hin].
      { rewrite (qualifyKey_anonymous _ _ Hanon) in EK. discriminate. }
      destruct (defineProperty_ok (own c) k {| mutationKey := K |})
        as [o E]; [apply Hf; simpl; auto|].
      rewrite E. apply IH; auto. simpl. intros k' Hin'.
      unfold is_frozen. rewrite (defineProperty_other _ _ _ _ _ E).
      * apply Hf. simpl. auto.
      * intros ->. apply Hk. now rewrite list_elem_of_In.
Qed.

Lemma seed_not_frozen (key : string) : is_frozen (own seed) key = false.
Proof.
  unfold is_frozen, seed. cbn [own get_own].
  destruct (String.eqb "length" key); [reflexivity|].
  destruct (String.eqb "name" key); reflexivity.
Qed.

Lemma map_fst_deferred_of N entries :
  map fst (map (deferred_of N) entries) = map fst entries.
Proof. rewrite map_map. reflexivity. Qed.

Lemma map_fst_get_of N entries :
  map fst (map (get_of N) entries) = map fst entries.
Proof. rewrite map_map. reflexivity. Qed.

(** What property [key] of a successful mutation wrap is. *)
Lemma wrapMutations_accessor N mutations w s s' key h :
  wrapMutations N mutations s = (inr w, s') ->
  NoDup (map fst mutations) -> In (key, h) mutations ->
  named h /\
  accessor w key = Some {| mutationKey := qualify (fn_name h) N |}.
Proof.
  unfold wrapMutations. intros H Hnd Hin.
  apply wrapMutations_reduce_inr in H as (Hall & _ & Hdef & _).
  split.
  - rewrite Forall_forall in Hall. apply (Hall (key, h)).
    now rewrite list_elem_of_In.
  - rewrite <- (map_fst_deferred_of N) in Hnd.
    destruct (define_all_own _ _ _ key
                {| mutationKey := qualify (fn_name h) N |} Hnd Hdef)
      as [c Hc].
    + change (key, _) with (deferred_of N (key, h)). now apply in_map.
    + unfold accessor. now rewrite Hc.
Qed.

(** What property [key] of a getter wrap is. *)
Lemma wrapGetters_own N entries o s s' key h :
  wrapGetters entries N s = (inr o, s') ->
  NoDup (map fst entries) -> In (key, h) entries ->
  exists c,
    get_own o key = Some (AccessorProperty {| getter := h; namespace := N |} c).
Proof.
  unfold wrapGetters. rewrite wrapGetters_loop_define_all.
  intros [= Hdef _] Hnd Hin.
  eapply define_all_own; [|exact Hdef|].
  - now rewrite map_fst_get_of.
  - change (key, _) with (get_of N (key, h)). now apply in_map.
Qed.

(** Distinct keys are all a getter wrap needs. *)
Lemma wrapGetters_ok N entries s :
  NoDup (map fst entries) -> exists o, wrapGetters entries N s = (inr o, s).
Proof.
  intros Hnd. unfold wrapGetters. rewrite wrapGetters_loop_define_all.
  destruct (define_all_ok (G := get_closure) [] (map (get_of N) entries))
    as [o E].
  - now rewrite map_fst_get_of.
  - reflexivity.
  - exists o. now rewrite E.
Qed.

(** ** Traces *)

Lemma commits_app (a b : list event) : commits (a ++ b) = commits a ++ commits b.
Proof.
  induction a as [|[t p o|L p] a IH]; simpl; [reflexivity| |assumption].
  now rewrite IH.
Qed.

Lemma calls_of_app L (a b : list event) :
  calls_of L (a ++ b) = calls_of L a ++ calls_of L b.
Proof.
  induction a as [|[t p o|L' p] a IH]; simpl; [reflexivity|assumption|].
  destruct (Nat.eqb L' L); simpl; now rewrite IH.
Qed.

Lemma commits_notify subs type payload : commits (notify subs type payload) = [].
Proof.
  unfold notify. induction subs as [|[id [K L]] subs IH]; simpl; [reflexivity|].
  rewrite commits_app, IH. now destruct (String.eqb type K).
Qed.

(** A commit under [type] invokes [L] once per registration of [L] on
    [type], each time with the committed payload. *)
Lemma calls_of_notify L subs type payload :
  calls_of L (notify subs type payload) =
  repeat payload (registrations type L subs).
Proof.
  unfold notify. induction subs as [|[id [K L']] subs IH]; simpl; [reflexivity|].
  rewrite calls_of_app, IH.
  destruct (String.eqb type K); simpl; [|reflexivity].
  now destruct (Nat.eqb L' L).
Qed.

Lemma registrations_app K L subs subs' :
  registrations K L (subs ++ subs') =
  registrations K L subs + registrations K L subs'.
Proof.
  induction subs as [|[id [K' L']] subs IH]; simpl; [reflexivity|].
  destruct (String.eqb K K' && Nat.eqb L' L); simpl; now rewrite IH.
Qed.

Lemma registrations_filter K L f subs :
  registrations K L subs = 0 -> registrations K L (List.filter f subs) = 0.
Proof.
  induction subs as [|[id [K' L']] subs IH]; simpl; [reflexivity|].
  destruct (String.eqb K K' && Nat.eqb L' L) eqn:E.
  - discriminate.
  - intros H. destruct (f (id, Filter K' L')); simpl; [rewrite E|]; auto.
Qed.

Lemma registrations_none K K2 L s :
  listens_only_on K L s -> K2 <> K ->
  registrations K2 L (subscribers s) = 0.
Proof.
  unfold listens_only_on. intros Hon Hne.
  induction (subscribers s) as [|[id [K' L']] subs IH]; simpl; [reflexivity|].
  destruct (String.eqb K2 K' && Nat.eqb L' L) eqn:E.
  - apply andb_true_iff in E as [E1 E2].
    apply String.eqb_eq in E1. apply Nat.eqb_eq in E2. subst.
    exfalso. apply Hne. apply (Hon id). now left.
  - apply IH. intros id' K'' Hin. apply (Hon id'). now right.
Qed.

(** What one [store.commit] leaves behind. *)
Lemma store_commit_spec type payload options s :
  exists s',
    store_commit type payload options s = (inr tt, s') /\
    getters s' = getters s /\ subscribers s' = subscribers s /\
    commits (trace s') = commits (trace s) ++ [(type, payload, options)] /\
    forall L, calls_of L (trace s') =
              calls_of L (trace s) ++
              repeat payload (registrations type L (subscribers s)).
Proof.
  eexists. split; [reflexivity|]. simpl. repeat split.
  - rewrite commits_app. simpl. now rewrite commits_notify.
  - intros L. rewrite calls_of_app. simpl. now rewrite calls_of_notify.
Qed.

(** The object a successful wrap returns is called like the seed. *)
Lemma wrapMutations_invoke N mutations w s s' :
  wrapMutations N mutations s = (inr w, s') ->
  invoke w = fun type payload options => store_commit type payload options.
Proof.
  intros H. apply wrapMutations_reduce_inr in H as (_ & H & _). exact H.
Qed.

(** ** Claims *)

(** C5. Key qualification: with the empty namespace the identifier is
    returned as it is; with a non-empty namespace [N] the result is
    [N + "/" + id].  [qualify] is a function of its two arguments and of
    nothing else. *)
Theorem qualify_equations (id N : string) :
  qualify id "" = id /\
  (N <> "" -> qualify id N = N +:+ "/" +:+ id).
Proof.
  split; [reflexivity|].
  intros HN. unfold qualify. apply eqb_false_ne in HN. now rewrite HN.
Qed.

Lemma qualify_equations_witness :
  "cart" <> "" /\ qualify "addItem" "cart" = "cart/addItem".
Proof.
  split; [discriminate|].
  exact (proj2 (qualify_equations "addItem" "cart") ltac:(discriminate)).
Defined.

(** C1. For an entry of the handler map whose handler has identifier
    [name], calling the accessor found on the wrapper under that entry's
    property results in exactly one [store.commit] call: key
    [qualify name N], the given payload, options [{ root: true }]. *)
Theorem wrapped_mutation_commits_once
  (N : string) (mutations : list (string * handler)) (w : CombinedCommitter)
  (s0 s0' : Store) (key name : string) (h : handler) (payload : value)
  (s : Store) :
  wrapMutations N mutations s0 = (inr w, s0') ->
  NoDup (map fst mutations) ->
  In (key, h) mutations -> fn_name h = name ->
  exists a s',
    accessor w key = Some a /\
    call w a payload s = (inr tt, s') /\
    commits (trace s') =
      commits (trace s) ++
      [(qualify name N, payload, Some {| silent := None; root := Some true |})].
Proof.
  intros Hw Hnd Hin <-.
  destruct (wrapMutations_accessor _ _ _ _ _ _ _ Hw Hnd Hin) as [_ Ha].
  destruct (store_commit_spec (qualify (fn_name h) N) payload
              (Some {| silent := None; root := Some true |}) s)
    as (s' & Hc & _ & _ & Ht & _).
  exists {| mutationKey := qualify (fn_name h) N |}, s'.
  split; [exact Ha|]. split; [|exact Ht].
  unfold call. now rewrite (wrapMutations_invoke _ _ _ _ _ Hw).
Qed.

Lemma wrapped_mutation_commits_once_witness :
  exists a s',
    accessor cart_wrapper "addItem" = Some a /\
    call cart_wrapper a item empty_store = (inr tt, s') /\
    commits (trace s') =
      commits (trace empty_store) ++
      [(qualify "addItem" "cart", item,
        Some {| silent := None; root := Some true |})].
Proof.
  apply (wrapped_mutation_commits_once "cart" cart_mutations cart_wrapper
           empty_store empty_store "addItem" "addItem" addItem).
  - reflexivity.
  - distinct_keys.
  - left. reflexivity.
  - reflexivity.
Defined.

(** C9. The object returned by [wrapMutations] is callable, and calling it
    with [(type, payload, options)] is [store.commit(type, payload, options)]
    with exactly those arguments; it also carries one accessor property per
    entry of the handler map. *)
Theorem wrapper_is_commit_passthrough
  (N : string) (mutations : list (string * handler)) (w : CombinedCommitter)
  (s0 s0' : Store) :
  wrapMutations N mutations s0 = (inr w, s0') ->
  NoDup (map fst mutations) ->
  (forall type payload options s,
      invoke w type payload options s = store_commit type payload options s /\
      commits (trace (snd (invoke w type payload options s))) =
        commits (trace s) ++ [(type, payload, options)]) /\
  (forall key h, In (key, h) mutations -> exists a, accessor w key = Some a).
Proof.
  intros Hw Hnd. split.
  - intros type payload options s.
    rewrite (wrapMutations_invoke _ _ _ _ _ Hw). split; [reflexivity|].
    destruct (store_commit_spec type payload options s)
      as (s' & -> & _ & _ & Ht & _).
    exact Ht.
  - intros key h Hin.
    destruct (wrapMutations_accessor _ _ _ _ _ _ _ Hw Hnd Hin) as [_ Ha].
    eauto.
Qed.

Lemma wrapper_is_commit_passthrough_witness :
  (forall type payload options s,
      invoke cart_wrapper type payload options s =
        store_commit type payload options s /\
      commits (trace (snd (invoke cart_wrapper type payload options s))) =
        commits (trace s) ++ [(type, payload, options)]) /\
  (forall key h, In (key, h) cart_mutations ->
                 exists a, accessor cart_wrapper key = Some a).
Proof.
  apply (wrapper_is_commit_passthrough "cart" cart_mutations cart_wrapper
           empty_store empty_store).
  - reflexivity.
  - distinct_keys.
Defined.

(** Reading a wrapped getter runs [qualifyKey] and then looks the key up. *)
Lemma wrapGetters_read N entries o s0 s0' key h :
  wrapGetters entries N s0 = (inr o, s0') ->
  NoDup (map fst entries) -> In (key, h) entries ->
  read o key = Some (run_get {| getter := h; namespace := N |}).
Proof.
  intros Hw Hnd Hin.
  destruct (wrapGetters_own _ _ _ _ _ _ _ Hw Hnd Hin) as [c Hc].
  unfold read. now rewrite Hc.
Qed.

Lemma run_get_named h N s :
  named h ->
  run_get {| getter := h; namespace := N |} s =
  (inr (default VUndefined (getters s !! qualify (fn_name h) N)), s).
Proof.
  intros Hn. unfold run_get, bind, lift. simpl.
  now rewrite (qualifyKey_named _ _ Hn).
Qed.

Lemma run_get_anonymous h N s :
  fn_name h = "" ->
  run_get {| getter := h; namespace := N |} s = (inl InvalidHandlerIdentity, s).
Proof.
  intros Ha. unfold run_get, bind, lift. simpl.
  now rewrite (qualifyKey_anonymous _ _ Ha).
Qed.

(** C10. The property installed for a map entry [(key, h)] is named by the
    map key, while the key dispatched or looked up is the qualification of
    [h]'s own declared name.  For a handler map of named mutations,
    [wrapMutations] returns a wrapper whose property [key] holds an
    accessor, and calling it commits under [qualify (fn_name h) N]; for a
    getter map, [wrapGetters] returns an object whose property [gkey] reads
    [store.getters] under [qualify (fn_name g) N]; whenever the property
    name is not the declared name, that key is not the qualified property
    name. *)
Theorem property_by_key_dispatch_by_declared_name
  (N : string) (mutations : list (string * handler)) (key : string)
  (h : handler) (getter_map : list (string * handler)) (gkey : string)
  (g : handler) (s0 : Store) :
  NoDup (map fst mutations) ->
  Forall (fun entry => named (snd entry)) mutations ->
  In (key, h) mutations ->
  NoDup (map fst getter_map) -> In (gkey, g) getter_map -> named g ->
  (exists w a,
      wrapMutations N mutations s0 = (inr w, s0) /\
      accessor w key = Some a /\
      mutationKey a = qualify (fn_name h) N /\
      (forall payload s,
          commits (trace (snd (call w a payload s))) =
            commits (trace s) ++
            [(qualify (fn_name h) N, payload,
              Some {| silent := None; root := Some true |})]) /\
      (key <> fn_name h -> mutationKey a <> qualify key N)) /\
  (exists o m,
      wrapGetters getter_map N s0 = (inr o, s0) /\
      read o gkey = Some m /\
      (forall s,
          m s = (inr (default VUndefined
                        (getters s !! qualify (fn_name g) N)), s)) /\
      (gkey <> fn_name g -> qualify (fn_name g) N <> qualify gkey N)).
Proof.
  intros Hnd Hall Hin Hgnd Hgin Hgn. split.
  - destruct (wrapMutations_reduce_ok N mutations seed s0 Hnd Hall)
      as [w Hw]; [intros k _; apply seed_not_frozen|].
    destruct (wrapMutations_accessor _ _ _ _ _ _ _ Hw Hnd Hin) as [_ Ha].
    exists w, {| mutationKey := qualify (fn_name h) N |}.
    split; [exact Hw|]. split; [exact Ha|]. split; [reflexivity|]. split.
    + intros payload s. unfold call.
      rewrite (wrapMutations_invoke _ _ _ _ _ Hw). simpl.
      rewrite commits_app. simpl. now rewrite commits_notify.
    + simpl. intros Hne Heq. apply qualify_inj in Heq. congruence.
  - destruct (wrapGetters_ok N getter_map s0 Hgnd) as [o Ho].
    exists o, (run_get {| getter := g; namespace := N |}).
    split; [exact Ho|]. split; [eapply wrapGetters_read; eauto|]. split.
    + intros s. now apply run_get_named.
    + intros Hne Heq. apply qualify_inj in Heq. congruence.
Qed.

Lemma property_by_key_dispatch_by_declared_name_witness :
  (exists w a,
      wrapMutations "cart" aliased_mutations empty_store =
        (inr w, empty_store) /\
      accessor w "push" = Some a /\
      mutationKey a = qualify "addItem" "cart" /\
      (forall payload s,
          commits (trace (snd (call w a payload s))) =
            commits (trace s) ++
            [(qualify "addItem" "cart", payload,
              Some {| silent := None; root := Some true |})]) /\
      mutationKey a <> qualify "push" "cart") /\
  (exists o m,
      wrapGetters aliased_getters "cart" empty_store = (inr o, empty_store) /\
      read o "sum" = Some m /\
      (forall s,
          m s = (inr (default VUndefined
                        (getters s !! qualify "total" "cart")), s)) /\
      qualify "total" "cart" <> qualify "sum" "cart").
Proof.
  destruct (property_by_key_dispatch_by_declared_name "cart"
              aliased_mutations "push" addItem aliased_getters "sum" total
              empty_store)
    as [(w & a & Hw & Ha & Hk & Hc & Hne) (o & m & Ho & Hr & Hm & Hgne)].
  - distinct_keys.
  - repeat constructor; discriminate.
  - right. left. reflexivity.
  - distinct_keys.
  - left. reflexivity.
  - discriminate.
  - split.
    + exists w, a.
      exact (conj Hw (conj Ha (conj Hk (conj Hc
               (Hne ltac:(discriminate)))))).
    + exists o, m.
      exact (conj Ho (conj Hr (conj Hm (Hgne ltac:(discriminate))))).
Defined.

(** C6. Reading a property of the object returned by [wrapGetters] looks
    up [store.getters[qualify(name, namespace)]] in the store as it is at
    that moment, [name] being the identifier of the entry's handler: the
    read returns the current value, a changed registry is seen by the next
    read without a new wrap, and an absent key reads [undefined] without
    raising. *)
Theorem live_getter_reads
  (entries : list (string * handler)) (N : string) (o : object get_closure)
  (s0 s0' : Store) (key name : string) (h : handler) :
  wrapGetters entries N s0 = (inr o, s0') ->
  NoDup (map fst entries) -> In (key, h) entries ->
  fn_name h = name -> name <> "" ->
  exists m,
    read o key = Some m /\
    (forall s,
        m s = (inr (default VUndefined (getters s !! qualify name N)), s)) /\
    (forall s V1 V2,
        m (set_getter (qualify name N) V1 s) =
          (inr V1, set_getter (qualify name N) V1 s) /\
        m (set_getter (qualify name N) V2 (set_getter (qualify name N) V1 s)) =
          (inr V2,
           set_getter (qualify name N) V2 (set_getter (qualify name N) V1 s))) /\
    (forall s, getters s !! qualify name N = None -> m s = (inr VUndefined, s)) /\
    (forall s,
        m (delete_getter (qualify name N) s) =
          (inr VUndefined, delete_getter (qualify name N) s)).
Proof.
  intros Hw Hnd Hin <- Hn. eexists. split.
  - eapply wrapGetters_read; eauto.
  - repeat split; intros.
    + now apply run_get_named.
    + rewrite run_get_named by exact Hn. simpl. now rewrite lookup_insert_eq.
    + rewrite run_get_named by exact Hn. simpl. now rewrite lookup_insert_eq.
    + rewrite run_get_named by exact Hn. now rewrite H.
    + rewrite run_get_named by exact Hn. simpl. now rewrite lookup_delete_eq.
Qed.

Lemma live_getter_reads_witness :
  exists m,
    read root_wrapped "total" = Some m /\
    (forall s,
        m s = (inr (default VUndefined (getters s !! qualify "total" "")), s)) /\
    (forall s V1 V2,
        m (set_getter (qualify "total" "") V1 s) =
          (inr V1, set_getter (qualify "total" "") V1 s) /\
        m (set_getter (qualify "total" "") V2
             (set_getter (qualify "total" "") V1 s)) =
          (inr V2,
           set_getter (qualify "total" "") V2
             (set_getter (qualify "total" "") V1 s))) /\
    (forall s,
        getters s !! qualify "total" "" = None -> m s = (inr VUndefined, s)) /\
    (forall s,
        m (delete_getter (qualify "total" "") s) =
          (inr VUndefined, delete_getter (qualify "total" "") s)).
Proof.
  apply (live_getter_reads root_getters "" root_wrapped empty_store empty_store
           "total" "total" total).
  - reflexivity.
  - distinct_keys.
  - left. reflexivity.
  - reflexivity.
  - discriminate.
Defined.

(** C7, as the code has it. A write to a property of the object returned by
    [wrapGetters] never goes through, the property having a getter and no
    setter: from strict code the write fails with the engine's [TypeError]
    (the read-only property error); from sloppy code it is dropped without
    an error.  The object is the same afterwards either way. *)
Theorem getter_properties_refuse_writes
  (entries : list (string * handler)) (N : string) (o : object get_closure)
  (s0 s0' : Store) (key : string) (h : handler) (strict : bool) (v : value)
  (s : Store) :
  wrapGetters entries N s0 = (inr o, s0') ->
  NoDup (map fst entries) -> In (key, h) entries ->
  write strict o key v s = (if strict then inl TypeError else inr o, s).
Proof.
  intros Hw Hnd Hin.
  destruct (wrapGetters_own _ _ _ _ _ _ _ Hw Hnd Hin) as [c Hc].
  unfold write, lift, set_property. now rewrite Hc.
Qed.

Lemma getter_properties_refuse_writes_witness :
  write true root_wrapped "total" (VNum 1) empty_store =
  (inl TypeError, empty_store).
Proof.
  apply (getter_properties_refuse_writes root_getters "" root_wrapped
           empty_store empty_store "total" total true (VNum 1) empty_store).
  - reflexivity.
  - distinct_keys.
  - left. reflexivity.
Defined.

(** C7, as stated, fails: sloppy code writing to the wrapped [total] gets
    no error at all. *)
Lemma sloppy_write_is_silent :
  wrapGetters root_getters "" empty_store = (inr root_wrapped, empty_store) /\
  write false root_wrapped "total" (VNum 1) empty_store =
  (inr root_wrapped, empty_store) /\
  fst (write false root_wrapped "total" (VNum 1) empty_store) <>
  inl TypeError.
Proof. repeat split. discriminate. Qed.

(** C8, as the code has it. A handler without a derivable identifier makes
    [wrapMutations] throw [InvalidHandlerIdentity] inside the wrap call.
    [wrapGetters] returns normally on the same map: its call to
    [qualifyKey] sits inside the getter, so the error is raised by each
    read of that handler's property. *)
Theorem anonymous_handler_identity_error
  (N : string) (entries : list (string * handler)) (key : string)
  (h : handler) :
  NoDup (map fst entries) -> In (key, h) entries -> fn_name h = "" ->
  (forall s, wrapMutations N entries s = (inl InvalidHandlerIdentity, s)) /\
  (forall s,
      exists o m,
        wrapGetters entries N s = (inr o, s) /\
        read o key = Some m /\
        forall s', m s' = (inl InvalidHandlerIdentity, s')).
Proof.
  intros Hnd Hin Hanon. split.
  - intros s. unfold wrapMutations.
    eapply wrapMutations_reduce_anonymous; eauto.
    intros k _. apply seed_not_frozen.
  - intros s. destruct (wrapGetters_ok N entries s Hnd) as [o Ho].
    exists o, (run_get {| getter := h; namespace := N |}).
    split; [exact Ho|]. split.
    + eapply wrapGetters_read; eauto.
    + intros s'. now apply run_get_anonymous.
Qed.

Lemma anonymous_handler_identity_error_witness :
  (forall s,
      wrapMutations "cart" [("total", anonymous)] s =
      (inl InvalidHandlerIdentity, s)) /\
  (forall s,
      exists o m,
        wrapGetters [("total", anonymous)] "cart" s = (inr o, s) /\
        read o "total" = Some m /\
        forall s', m s' = (inl InvalidHandlerIdentity, s')).
Proof.
  apply (anonymous_handler_identity_error "cart" [("total", anonymous)]
           "total" anonymous).
  - distinct_keys.
  - left. reflexivity.
  - reflexivity.
Defined.

(** C8, as stated, fails for [wrapGetters]: the wrap of a map holding an
    anonymous handler returns its object and raises nothing. *)
Lemma anonymous_getter_wraps :
  fn_name anonymous = "" /\
  wrapGetters [("total", anonymous)] "" empty_store =
  (inr [("total",
         AccessorProperty {| getter := anonymous; namespace := "" |} false)],
   empty_store) /\
  fst (wrapGetters [("total", anonymous)] "" empty_store) <>
  inl InvalidHandlerIdentity.
Proof. repeat split. discriminate. Qed.

(** C4, as the code has it. [wrapMutations] has no duplicate-key check:
    for named handlers under distinct property names the wrap call returns
    its object and leaves the store as it was (no commit), whether or not
    two handlers qualify to the same key; each property dispatches to the
    qualified key of its own handler. *)
Theorem wrapMutations_accepts_shared_keys
  (N : string) (mutations : list (string * handler)) (s : Store) :
  NoDup (map fst mutations) ->
  Forall (fun entry => named (snd entry)) mutations ->
  exists w,
    wrapMutations N mutations s = (inr w, s) /\
    forall key h,
      In (key, h) mutations ->
      accessor w key = Some {| mutationKey := qualify (fn_name h) N |}.
Proof.
  intros Hnd Hall.
  destruct (wrapMutations_reduce_ok N mutations seed s Hnd Hall) as [w Hw].
  - intros k _. apply seed_not_frozen.
  - exists w. split; [exact Hw|]. intros key h Hin.
    now destruct (wrapMutations_accessor _ _ _ _ _ _ _ Hw Hnd Hin).
Qed.

Lemma wrapMutations_accepts_shared_keys_witness :
  exists w,
    wrapMutations "cart" aliased_mutations empty_store = (inr w, empty_store) /\
    forall key h,
      In (key, h) aliased_mutations ->
      accessor w key = Some {| mutationKey := qualify (fn_name h) "cart" |}.
Proof.
  apply (wrapMutations_accepts_shared_keys "cart" aliased_mutations empty_store).
  - distinct_keys.
  - repeat constructor; discriminate.
Defined.

(** C4, as stated, fails: two handlers that qualify to the same key
    ["cart/addItem"] are wrapped without any error. *)
Lemma shared_key_wraps_silently :
  qualifyKey (snd ("add", addItem)) "cart" = inr "cart/addItem" /\
  qualifyKey (snd ("push", addItem)) "cart" = inr "cart/addItem" /\
  wrapMutations "cart" aliased_mutations empty_store =
  (inr {| invoke := fun type payload options =>
                      store_commit type payload options;
          own := [("length", DataProperty (VNum 3) false true);
                  ("name", DataProperty (VStr "") false true);
                  ("add",
                   AccessorProperty {| mutationKey := "cart/addItem" |} false);
                  ("push",
                   AccessorProperty {| mutationKey := "cart/addItem" |} false)]
       |},
   empty_store).
Proof. repeat split. Qed.

(** ** Listeners *)

(** C2. Listener round trip: a listener [L] not yet registered on the
    accessor's key is registered through [a.listen(L)]; one call
    [a(payload)] then invokes [L] exactly once, with [payload]; once the
    disposer returned by [listen] has been called, a further call of [a]
    does not invoke [L]. *)
Theorem listener_round_trip
  (N : string) (mutations : list (string * handler)) (w : CombinedCommitter)
  (s0 s0' : Store) (key : string) (a : deferred) (L : listener)
  (payload payload' : value) (s : Store) :
  wrapMutations N mutations s0 = (inr w, s0') ->
  accessor w key = Some a ->
  registrations (mutationKey a) L (subscribers s) = 0 ->
  exists d s1 s2 s3 s4,
    listen a L s = (inr d, s1) /\
    call w a payload s1 = (inr tt, s2) /\
    calls_of L (trace s2) = calls_of L (trace s1) ++ [payload] /\
    dispose d s2 = (inr tt, s3) /\
    call w a payload' s3 = (inr tt, s4) /\
    calls_of L (trace s4) = calls_of L (trace s3).
Proof.
  intros Hw _ Hfresh.
  pose proof (wrapMutations_invoke _ _ _ _ _ Hw) as Hinv.
  destruct (listen a L s) as [r1 s1] eqn:E1.
  unfold listen, store_subscribe in E1. injection E1 as <- <-.
  eexists _, _.
  destruct (store_commit_spec (mutationKey a) payload
              (Some {| silent := None; root := Some true |})
              {| getters := getters s;
                 subscribers :=
                   subscribers s ++
                   [(next_subscription s, Filter (mutationKey a) L)];
                 next_subscription := S (next_subscription s);
                 trace := trace s |})
    as (s2 & Hc2 & _ & Hs2 & _ & Hcalls2).
  exists s2.
  destruct (dispose (Disposer (next_subscription s)) s2) as [r3 s3] eqn:E3.
  unfold dispose in E3. injection E3 as <- <-.
  eexists.
  match goal with
  | |- context [dispose _ _ = (_, ?s3)] =>
      destruct (store_commit_spec (mutationKey a) payload'
                  (Some {| silent := None; root := Some true |}) s3)
        as (s4 & Hc4 & _ & _ & _ & Hcalls4)
  end.
  exists s4. repeat split.
  - unfold call. now rewrite Hinv.
  - rewrite Hcalls2. simpl. rewrite registrations_app, Hfresh. simpl.
    now rewrite String.eqb_refl, Nat.eqb_refl.
  - unfold call. now rewrite Hinv.
  - rewrite Hcalls4. simpl. rewrite Hs2. simpl.
    rewrite List.filter_app, registrations_app. simpl.
    rewrite Nat.eqb_refl. simpl.
    rewrite registrations_filter by exact Hfresh. simpl.
    now rewrite app_nil_r.
Qed.

Lemma listener_round_trip_witness :
  exists d s1 s2 s3 s4,
    listen {| mutationKey := "cart/addItem" |} 7 empty_store = (inr d, s1) /\
    call cart_wrapper {| mutationKey := "cart/addItem" |} item s1 =
      (inr tt, s2) /\
    calls_of 7 (trace s2) = calls_of 7 (trace s1) ++ [item] /\
    dispose d s2 = (inr tt, s3) /\
    call cart_wrapper {| mutationKey := "cart/addItem" |} (VNum 2) s3 =
      (inr tt, s4) /\
    calls_of 7 (trace s4) = calls_of 7 (trace s3).
Proof.
  apply (listener_round_trip "cart" cart_mutations cart_wrapper empty_store
           empty_store "addItem" {| mutationKey := "cart/addItem" |} 7 item
           (VNum 2) empty_store).
  - reflexivity.
  - reflexivity.
  - reflexivity.
Defined.

(** Store traffic that registers [L] on [K] only keeps [L] on [K]. *)
Lemma perform_listens_only_on w K L a s :
  (invoke w = fun type payload options => store_commit type payload options) ->
  keeps K L a -> listens_only_on K L s -> listens_only_on K L (perform w a s).
Proof.
  unfold listens_only_on. intros Hinv Hk Hon id K'.
  destruct a as [type payload options|d payload|d handler|[sub]|k v];
    simpl; unfold call; try rewrite Hinv; simpl; try apply Hon.
  - rewrite in_app_iff. intros [Hin|[[= _ <- ->]|[]]]; [eauto|].
    now apply Hk.
  - intros Hin. apply List.filter_In in Hin as [Hin _]. eauto.
Qed.

Lemma run_listens_only_on w K L script s :
  (invoke w = fun type payload options => store_commit type payload options) ->
  Forall (keeps K L) script -> listens_only_on K L s ->
  listens_only_on K L (run w script s).
Proof.
  intros Hinv Hall. revert s. unfold run.
  induction Hall as [|a script Ha _ IH]; simpl; intros s Hon; [exact Hon|].
  apply IH. now apply perform_listens_only_on.
Qed.

(** C3. Listener isolation: a listener [L] whose registrations all went
    through [listen] on accessors of key [K] is not invoked by a commit
    event of any other type [K2], at whatever later moment the commit is
    dispatched through the same store, be it by calling the wrapper or by
    calling another accessor. *)
Theorem listener_isolation
  (N : string) (mutations : list (string * handler)) (w : CombinedCommitter)
  (s0 s0' : Store) (K K2 : string) (L : listener) (script : list action)
  (s : Store) (payload : value) (options : option CommitOptions) :
  wrapMutations N mutations s0 = (inr w, s0') ->
  listens_only_on K L s -> Forall (keeps K L) script -> K2 <> K ->
  calls_of L (trace (snd (invoke w K2 payload options (run w script s)))) =
    calls_of L (trace (run w script s)) /\
  calls_of L
    (trace (snd (call w {| mutationKey := K2 |} payload (run w script s)))) =
    calls_of L (trace (run w script s)).
Proof.
  intros Hw Hon Hall Hne.
  pose proof (wrapMutations_invoke _ _ _ _ _ Hw) as Hinv.
  pose proof (run_listens_only_on w K L script s Hinv Hall Hon) as Hon'.
  pose proof (registrations_none K K2 L _ Hon' Hne) as Hnone.
  unfold call. rewrite Hinv. simpl.
  rewrite !calls_of_app. simpl. rewrite !calls_of_notify, Hnone. simpl.
  now rewrite app_nil_r.
Qed.

Lemma listener_isolation_witness :
  let script :=
    [Listen {| mutationKey := "cart/addItem" |} 7;
     Call {| mutationKey := "cart/addItem" |} item] in
  calls_of 7
    (trace (snd (invoke cart_wrapper "cart/clear" VUndefined None
                   (run cart_wrapper script empty_store)))) =
    calls_of 7 (trace (run cart_wrapper script empty_store)) /\
  calls_of 7
    (trace (snd (call cart_wrapper {| mutationKey := "cart/clear" |}
                   VUndefined (run cart_wrapper script empty_store)))) =
    calls_of 7 (trace (run cart_wrapper script empty_store)).
Proof.
  apply (listener_isolation "cart" cart_mutations cart_wrapper empty_store
           empty_store "cart/addItem" "cart/clear" 7).
  - reflexivity.
  - intros id K' [].
  - repeat constructor.
  - discriminate.
Defined.

(** * Further properties of the two wrappers *)

(** ** The shape of the objects built *)

Lemma get_own_None_iff {G} (o : object G) (key : string) :
  get_own o key = None <-> ~ In key (map fst o).
Proof.
  induction o as [|[k p] o IH]; simpl; [tauto|].
  destruct (String.eqb k key) eqn:E.
  - apply String.eqb_eq in E. split; [discriminate|]. intros H. tauto.
  - apply String.eqb_neq in E. rewrite IH. tauto.
Qed.

Lemma define_all_fresh {G} (o : object G) (defs : list (string * G)) :
  NoDup (map fst defs) ->
  (forall key, In key (map fst defs) -> get_own o key = None) ->
  define_all o defs = inr (o ++ installed defs).
Proof.
  revert o. induction defs as [|[k g] defs IH]; simpl; intros o Hnd Hnone.
  - now rewrite app_nil_r.
  - apply NoDup_cons in Hnd as [Hk Hnd].
    rewrite defineProperty_fresh by auto.
    rewrite IH; [now rewrite <- app_assoc|assumption|].
    intros key Hin. rewrite get_own_app, (Hnone key) by auto. simpl.
    destruct (String.eqb k key) eqn:E; [|reflexivity].
    apply String.eqb_eq in E. subst key.
    exfalso. apply Hk. now rewrite list_elem_of_In.
Qed.

(** With named handlers only, the mutation wrap is a run of definitions. *)
Lemma wrapMutations_reduce_named N entries c s :
  Forall (fun entry => named (snd entry)) entries ->
  wrapMutations_reduce N entries c s =
  (match define_all (own c) (map (deferred_of N) entries) with
   | inr o => inr {| invoke := invoke c; own := o |}
   | inl e => inl e
   end, s).
Proof.
  intros Hall. revert c.
  induction Hall as [|[key mutation] rest Hn _ IH]; intros c; simpl.
  - now destruct c.
  - unfold bind, lift. simpl in Hn. rewrite (qualifyKey_named _ _ Hn).
    unfold deferred_of at 1. simpl.
    destruct (defineProperty (own c) key _); [reflexivity|].
    now rewrite IH.
Qed.

(** The only exception a mutation wrap over distinct keys can raise. *)
Lemma wrapMutations_reduce_inl N entries c s s' e :
  NoDup (map fst entries) ->
  (forall key, In key (map fst entries) -> is_frozen (own c) key = false) ->
  wrapMutations_reduce N entries c s = (inl e, s') ->
  e = InvalidHandlerIdentity /\ s' = s.
Proof.
  revert c. induction entries as [|[k mutation] rest IH];
    intros c Hnd Hf; simpl.
  - discriminate.
  - apply NoDup_cons in Hnd as [Hk Hnd]. unfold bind, lift.
    destruct (qualifyKey mutation N) as [e'|K] eqn:EK.
    + unfold qualifyKey in EK.
      destruct (String.eqb (fn_name mutation) ""); [|discriminate].
      injection EK as <-. now intros [= <- <-].
    + destruct (defineProperty_ok (own c) k {| mutationKey := K |})
        as [o E]; [apply Hf; simpl; auto|].
      rewrite E. apply IH; auto. simpl. intros k' Hin'.
      unfold is_frozen. rewrite (defineProperty_other _ _ _ _ _ E).
      * apply Hf. simpl. auto.
      * intros ->. apply Hk. now rewrite list_elem_of_In.
Qed.

(** X1. Over distinct property names, [wrapMutations] returns a wrapper
    exactly when every handler has a name; when it throws, what it throws
    is [InvalidHandlerIdentity], never the engine's [TypeError], and the
    store is as before. *)
Theorem wrapMutations_outcome
  (N : string) (mutations : list (string * handler)) (s : Store) :
  NoDup (map fst mutations) ->
  ((exists w, wrapMutations N mutations s = (inr w, s)) <->
   Forall (fun entry => named (snd entry)) mutations) /\
  (forall e s',
      wrapMutations N mutations s = (inl e, s') ->
      e = InvalidHandlerIdentity /\ s' = s).
Proof.
  intros Hnd. split; [split|].
  - intros [w Hw]. now apply wrapMutations_reduce_inr in Hw.
  - intros Hall. apply wrapMutations_reduce_ok; auto.
    intros k _. apply seed_not_frozen.
  - intros e s'. apply wrapMutations_reduce_inl; auto.
    intros k _. apply seed_not_frozen.
Qed.

Lemma wrapMutations_outcome_witness :
  ((exists w, wrapMutations "cart" aliased_mutations empty_store =
              (inr w, empty_store)) <->
   Forall (fun entry => named (snd entry)) aliased_mutations) /\
  (forall e s',
      wrapMutations "cart" aliased_mutations empty_store = (inl e, s') ->
      e = InvalidHandlerIdentity /\ s' = empty_store).
Proof.
  apply (wrapMutations_outcome "cart" aliased_mutations empty_store).
  distinct_keys.
Defined.

(** X2. Over distinct property names [wrapGetters] always returns, whatever
    the handlers and whatever the store holds, and the object it returns
    has exactly one own property per entry, in the order of the entries:
    an accessor over that entry's handler and the namespace, not
    configurable.  The store is as before. *)
Theorem wrapGetters_table
  (entries : list (string * handler)) (N : string) (s : Store) :
  NoDup (map fst entries) ->
  wrapGetters entries N s = (inr (installed (map (get_of N) entries)), s).
Proof.
  intros Hnd. unfold wrapGetters. rewrite wrapGetters_loop_define_all.
  rewrite define_all_fresh; [reflexivity| |reflexivity].
  now rewrite map_fst_get_of.
Qed.

Lemma wrapGetters_table_witness :
  wrapGetters root_getters "" empty_store =
  (inr (installed (map (get_of "") root_getters)), empty_store).
Proof.
  apply (wrapGetters_table root_getters "" empty_store). distinct_keys.
Defined.

(** X3. For named handlers under distinct property names other than
    [length] and [name], the object [wrapMutations] returns is the seed
    function with one more own property per entry, in the order of the
    entries: an accessor returning the [deferred] of that handler's
    qualified key, not configurable. *)
Theorem wrapMutations_table
  (N : string) (mutations : list (string * handler)) (s : Store) :
  NoDup (map fst mutations) ->
  Forall (fun entry => named (snd entry)) mutations ->
  ~ In "length" (map fst mutations) -> ~ In "name" (map fst mutations) ->
  wrapMutations N mutations s =
  (inr {| invoke := invoke seed;
          own := own seed ++ installed (map (deferred_of N) mutations) |}, s).
Proof.
  intros Hnd Hall Hlen Hname. unfold wrapMutations.
  rewrite wrapMutations_reduce_named by exact Hall.
  rewrite define_all_fresh; [reflexivity| |].
  - now rewrite map_fst_deferred_of.
  - rewrite map_fst_deferred_of. intros key Hin.
    apply get_own_None_iff. simpl. intros [<-|[<-|[]]]; tauto.
Qed.

Lemma wrapMutations_table_witness :
  wrapMutations "cart" aliased_mutations empty_store =
  (inr {| invoke := invoke seed;
          own := own seed ++
                 installed (map (deferred_of "cart") aliased_mutations) |},
   empty_store).
Proof.
  apply (wrapMutations_table "cart" aliased_mutations empty_store).
  - distinct_keys.
  - repeat constructor; discriminate.
  - simpl. intros [H|[H|[]]]; discriminate.
  - simpl. intros [H|[H|[]]]; discriminate.
Defined.

Lemma wrapMutations_reduce_fst N entries c s s' :
  fst (wrapMutations_reduce N entries c s) =
  fst (wrapMutations_reduce N entries c s').
Proof.
  revert c. induction entries as [|[key mutation] rest IH]; intros c; simpl.
  - reflexivity.
  - unfold bind, lift. destruct (qualifyKey mutation N); [reflexivity|].
    destruct (defineProperty (own c) key _); [reflexivity|]. apply IH.
Qed.

(** X4. Building a wrapper never touches the store, whether the wrap
    returns or throws, and what it returns or throws does not depend on
    what the store holds at that moment. *)
Theorem wraps_ignore_the_store
  (N : string) (entries : list (string * handler)) (s s' : Store) :
  snd (wrapMutations N entries s) = s /\
  snd (wrapGetters entries N s) = s /\
  fst (wrapMutations N entries s) = fst (wrapMutations N entries s') /\
  fst (wrapGetters entries N s) = fst (wrapGetters entries N s').
Proof.
  repeat split.
  - apply wrapMutations_reduce_store.
  - apply wrapGetters_loop_store.
  - apply wrapMutations_reduce_fst.
  - unfold wrapGetters. now rewrite !wrapGetters_loop_define_all.
Qed.

(** X5. A successful [wrapMutations] puts an accessor under the property
    names of the handler map and under no other name. *)
Theorem accessor_iff_key
  (N : string) (mutations : list (string * handler)) (w : CombinedCommitter)
  (s s' : Store) (key : string) :
  wrapMutations N mutations s = (inr w, s') ->
  NoDup (map fst mutations) ->
  ((exists a, accessor w key = Some a) <-> In key (map fst mutations)).
Proof.
  intros Hw Hnd. split.
  - intros [a Ha].
    destruct (in_dec String.string_dec key (map fst mutations)) as [|Hn];
      [assumption|exfalso].
    apply wrapMutations_reduce_inr in Hw as (_ & _ & Hdef & _).
    rewrite <- (map_fst_deferred_of N) in Hn.
    pose proof (define_all_other _ _ _ key Hdef Hn) as Hsame.
    unfold accessor in Ha. rewrite Hsame in Ha.
    unfold seed in Ha. cbn [own get_own] in Ha.
    destruct (String.eqb "length" key); [discriminate|].
    destruct (String.eqb "name" key); discriminate.
  - intros Hin. apply in_map_iff in Hin as [[k h] [<- Hin]].
    destruct (wrapMutations_accessor _ _ _ _ _ _ _ Hw Hnd Hin) as [_ Ha].
    eauto.
Qed.

Lemma accessor_iff_key_witness :
  (exists a, accessor cart_wrapper "checkout" = Some a) <->
  In "checkout" (map fst cart_mutations).
Proof.
  apply (accessor_iff_key "cart" cart_mutations cart_wrapper empty_store
           empty_store "checkout").
  - reflexivity.
  - distinct_keys.
Defined.

Lemma define_all_own_fresh {G} (o o' : object G) defs key get :
  NoDup (map fst defs) -> define_all o defs = inr o' ->
  In (key, get) defs -> get_own o key = None ->
  get_own o' key = Some (AccessorProperty get false).
Proof.
  revert o. induction defs as [|[k g] defs IH]; simpl;
    intros o Hnd H Hin Hnone; [contradiction|].
  apply NoDup_cons in Hnd as [Hk Hnd].
  destruct (defineProperty o k g) as [e|o1] eqn:E; [discriminate|].
  destruct Hin as [[= -> ->]|Hin].
  - rewrite (define_all_other _ _ _ _ H) by now rewrite <- list_elem_of_In.
    rewrite defineProperty_fresh in E by assumption. injection E as <-.
    rewrite get_own_app, Hnone. simpl. now rewrite String.eqb_refl.
  - apply (IH o1); auto.
    rewrite (defineProperty_other _ _ _ _ _ E); [assumption|].
    intros ->. apply Hk. rewrite list_elem_of_In.
    change k with (fst (k, get)). now apply in_map.
Qed.

(** X6. The properties the wrappers install are locked.  For a getter map
    with distinct property names [wrapGetters] returns an object, and for a
    map of named mutations with distinct property names [wrapMutations]
    returns a wrapper, on which every property installed for an entry (for
    the mutation wrapper: other than a redefined [length] or [name]) is not
    configurable: a later [Object.defineProperty] with another getter on it
    throws [TypeError]. *)
Theorem wrapped_properties_locked
  (N : string) (getter_map : list (string * handler)) (gkey : string)
  (g : handler) (mutations : list (string * handler)) (key : string)
  (h : handler) (s : Store) :
  NoDup (map fst getter_map) -> In (gkey, g) getter_map ->
  NoDup (map fst mutations) ->
  Forall (fun entry => named (snd entry)) mutations ->
  In (key, h) mutations -> key <> "length" -> key <> "name" ->
  (exists o,
      wrapGetters getter_map N s = (inr o, s) /\
      forall get, defineProperty o gkey get = inl TypeError) /\
  (exists w,
      wrapMutations N mutations s = (inr w, s) /\
      forall get, defineProperty (own w) key get = inl TypeError).
Proof.
  intros Hgnd Hgin Hnd Hall Hin Hlen Hname. split.
  - destruct (wrapGetters_ok N getter_map s Hgnd) as [o Ho].
    exists o. split; [exact Ho|]. intros get.
    unfold wrapGetters in Ho.
    rewrite wrapGetters_loop_define_all in Ho. injection Ho as Hdef.
    unfold defineProperty.
    rewrite (define_all_own_fresh _ _ _ gkey
               {| getter := g; namespace := N |}
               ltac:(rewrite map_fst_get_of; exact Hgnd) Hdef).
    + reflexivity.
    + change (gkey, _) with (get_of N (gkey, g)). now apply in_map.
    + reflexivity.
  - destruct (wrapMutations_reduce_ok N mutations seed s Hnd Hall)
      as [w Hw]; [intros k _; apply seed_not_frozen|].
    exists w. split; [exact Hw|]. intros get.
    apply wrapMutations_reduce_inr in Hw as (_ & _ & Hdef & _).
    unfold defineProperty.
    rewrite (define_all_own_fresh _ _ _ key
               {| mutationKey := qualify (fn_name h) N |}
               ltac:(rewrite map_fst_deferred_of; exact Hnd) Hdef).
    + reflexivity.
    + change (key, _) with (deferred_of N (key, h)). now apply in_map.
    + apply get_own_None_iff. simpl. intros [H|[H|[]]]; congruence.
Qed.

Lemma wrapped_properties_locked_witness :
  (exists o,
      wrapGetters root_getters "cart" empty_store = (inr o, empty_store) /\
      forall get, defineProperty o "total" get = inl TypeError) /\
  (exists w,
      wrapMutations "cart" cart_mutations empty_store =
        (inr w, empty_store) /\
      forall get, defineProperty (own w) "addItem" get = inl TypeError).
Proof.
  apply (wrapped_properties_locked "cart" root_getters "total" total
           cart_mutations "addItem" addItem empty_store).
  - distinct_keys.
  - left. reflexivity.
  - distinct_keys.
  - repeat constructor; discriminate.
  - left. reflexivity.
  - discriminate.
  - discriminate.
Defined.

(** X7. Reading a property of the object returned by [wrapGetters] leaves
    the store exactly as it was, whether the read returns a value or
    throws: no commit, no subscription, no listener run; reading again
    right away gives the same outcome. *)
Theorem reads_leave_the_store
  (entries : list (string * handler)) (N : string) (o : object get_closure)
  (s0 s0' : Store) (key : string) (m : M value) (s : Store) :
  wrapGetters entries N s0 = (inr o, s0') ->
  read o key = Some m ->
  snd (m s) = s /\ m (snd (m s)) = m s.
Proof.
  intros _ Hr. unfold read in Hr.
  assert (snd (m s) = s) as Hs.
  { destruct (get_own o key) as [[v wr c|g c]|]; [| |discriminate];
      injection Hr as <-; [reflexivity|].
    unfold run_get, bind, lift, store_getters.
    now destruct (qualifyKey (getter g) (namespace g)). }
  split; [exact Hs|now rewrite Hs].
Qed.

Lemma reads_leave_the_store_witness :
  snd (run_get {| getter := total; namespace := "" |}
         (set_getter "total" (VNum 42) empty_store)) =
    set_getter "total" (VNum 42) empty_store /\
  run_get {| getter := total; namespace := "" |}
    (snd (run_get {| getter := total; namespace := "" |}
            (set_getter "total" (VNum 42) empty_store))) =
  run_get {| getter := total; namespace := "" |}
    (set_getter "total" (VNum 42) empty_store).
Proof.
  apply (reads_leave_the_store root_getters "" root_wrapped empty_store
           empty_store "total").
  - reflexivity.
  - reflexivity.
Defined.

(** ** Listeners and store traffic *)

(** X8. The filter installed by [listen] looks at the committed type and
    at nothing else: a listener registered once on an accessor is invoked
    exactly once, with the payload, by any commit of that accessor's key,
    whether it is issued by calling the wrapper itself with the key or
    through another accessor bound to the same key. *)
Theorem listener_hears_any_origin
  (N : string) (mutations : list (string * handler)) (w : CombinedCommitter)
  (s0 s0' : Store) (a : deferred) (L : listener) (payload : value)
  (options : option CommitOptions) (s : Store) :
  wrapMutations N mutations s0 = (inr w, s0') ->
  registrations (mutationKey a) L (subscribers s) = 0 ->
  calls_of L
    (trace (snd (invoke w (mutationKey a) payload options
                   (snd (listen a L s))))) =
    calls_of L (trace (snd (listen a L s))) ++ [payload] /\
  (forall a',
      mutationKey a' = mutationKey a ->
      calls_of L (trace (snd (call w a' payload (snd (listen a L s))))) =
        calls_of L (trace (snd (listen a L s))) ++ [payload]).
Proof.
  intros Hw Hfresh.
  pose proof (wrapMutations_invoke _ _ _ _ _ Hw) as Hinv.
  assert (forall o,
    calls_of L
      (trace (snd (store_commit (mutationKey a) payload o
                     (snd (listen a L s))))) =
    calls_of L (trace (snd (listen a L s))) ++ [payload]) as Hone.
  { intros o. simpl. rewrite calls_of_app. simpl.
    rewrite calls_of_notify, registrations_app, Hfresh. simpl.
    now rewrite String.eqb_refl, Nat.eqb_refl. }
  split.
  - rewrite Hinv. apply Hone.
  - intros a' Ha'. unfold call. rewrite Hinv, Ha'. apply Hone.
Qed.

Lemma listener_hears_any_origin_witness :
  calls_of 7
    (trace (snd (invoke cart_wrapper "cart/addItem" item None
                   (snd (listen {| mutationKey := "cart/addItem" |} 7
                           empty_store))))) =
    calls_of 7
      (trace (snd (listen {| mutationKey := "cart/addItem" |} 7
                     empty_store))) ++ [item] /\
  (forall a',
      mutationKey a' = "cart/addItem" ->
      calls_of 7
        (trace (snd (call cart_wrapper a' item
                       (snd (listen {| mutationKey := "cart/addItem" |} 7
                               empty_store))))) =
        calls_of 7
          (trace (snd (listen {| mutationKey := "cart/addItem" |} 7
                         empty_store))) ++ [item]).
Proof.
  apply (listener_hears_any_origin "cart" cart_mutations cart_wrapper
           empty_store empty_store {| mutationKey := "cart/addItem" |} 7
           item None empty_store).
  - reflexivity.
  - reflexivity.
Defined.

(** X9. Every [listen] call is a subscription of its own, the same handler
    on the same accessor included: after two registrations, calling the
    disposer of the first leaves the second in place, and a call of its
    accessor invokes its handler exactly once. *)
Theorem second_listener_survives_disposal
  (N : string) (mutations : list (string * handler)) (w : CombinedCommitter)
  (s0 s0' : Store) (a1 a2 : deferred) (L1 L2 : listener) (payload : value)
  (s : Store) :
  wrapMutations N mutations s0 = (inr w, s0') ->
  registrations (mutationKey a2) L2 (subscribers s) = 0 ->
  exists d1 d2 s1 s2 s3 s4,
    listen a1 L1 s = (inr d1, s1) /\
    listen a2 L2 s1 = (inr d2, s2) /\
    dispose d1 s2 = (inr tt, s3) /\
    call w a2 payload s3 = (inr tt, s4) /\
    calls_of L2 (trace s4) = calls_of L2 (trace s3) ++ [payload].
Proof.
  intros Hw Hfresh.
  pose proof (wrapMutations_invoke _ _ _ _ _ Hw) as Hinv.
  do 6 eexists. repeat split.
  - unfold call. rewrite Hinv. reflexivity.
  - simpl. rewrite calls_of_app. simpl. rewrite calls_of_notify.
    rewrite !List.filter_app. cbn [List.filter fst negb].
    rewrite Nat.eqb_refl.
    rewrite (proj2 (Nat.eqb_neq (S (next_subscription s))
                      (next_subscription s))) by lia.
    cbn [negb]. rewrite !registrations_app.
    rewrite registrations_filter by exact Hfresh. simpl.
    now rewrite String.eqb_refl, Nat.eqb_refl.
Qed.

Lemma second_listener_survives_disposal_witness :
  exists d1 d2 s1 s2 s3 s4,
    listen {| mutationKey := "cart/addItem" |} 7 empty_store = (inr d1, s1) /\
    listen {| mutationKey := "cart/addItem" |} 7 s1 = (inr d2, s2) /\
    dispose d1 s2 = (inr tt, s3) /\
    call cart_wrapper {| mutationKey := "cart/addItem" |} item s3 =
      (inr tt, s4) /\
    calls_of 7 (trace s4) = calls_of 7 (trace s3) ++ [item].
Proof.
  apply (second_listener_survives_disposal "cart" cart_mutations cart_wrapper
           empty_store empty_store {| mutationKey := "cart/addItem" |}
           {| mutationKey := "cart/addItem" |} 7 7 item empty_store).
  - reflexivity.
  - reflexivity.
Defined.

Lemma run_cons w a script s :
  run w (a :: script) s = run w script (perform w a s).
Proof. reflexivity. Qed.

Lemma perform_commits w a s :
  (invoke w = fun type payload options => store_commit type payload options) ->
  commits (trace (perform w a s)) = commits (trace s) ++ script_commits [a].
Proof.
  intros Hinv.
  destruct a as [type payload options|d payload|d handler|[sub]|k v];
    simpl; unfold call; try rewrite Hinv; simpl;
    try (now rewrite app_nil_r);
    rewrite commits_app; simpl; now rewrite commits_notify.
Qed.

(** X10. Store traffic issued through a wrapper is accounted for commit by
    commit: after any script of wrapper calls, accessor calls, listener
    registrations, disposals and getter updates, the store has seen one
    commit per wrapper call and per accessor call, in the order of the
    calls and with their arguments (an accessor call with its qualified
    key and [{ root: true }]), and no other commit. *)
Theorem script_commit_accounting
  (N : string) (mutations : list (string * handler)) (w : CombinedCommitter)
  (s0 s0' : Store) (script : list action) (s : Store) :
  wrapMutations N mutations s0 = (inr w, s0') ->
  commits (trace (run w script s)) =
  commits (trace s) ++ script_commits script.
Proof.
  intros Hw. pose proof (wrapMutations_invoke _ _ _ _ _ Hw) as Hinv.
  revert s. induction script as [|a script IH]; intros s.
  - simpl. now rewrite app_nil_r.
  - rewrite run_cons, IH, (perform_commits w a s Hinv), <- app_assoc.
    f_equal. simpl. now destruct a.
Qed.

Lemma script_commit_accounting_witness :
  commits
    (trace (run cart_wrapper
              [Listen {| mutationKey := "cart/addItem" |} 7;
               Call {| mutationKey := "cart/addItem" |} item;
               Commit "cart/clear" VUndefined None]
              empty_store)) =
  commits (trace empty_store) ++
  script_commits
    [Listen {| mutationKey := "cart/addItem" |} 7;
     Call {| mutationKey := "cart/addItem" |} item;
     Commit "cart/clear" VUndefined None].
Proof.
  apply (script_commit_accounting "cart" cart_mutations cart_wrapper
           empty_store empty_store).
  reflexivity.
Defined.

Lemma perform_calls w K L a s p :
  (invoke w = fun type payload options => store_commit type payload options) ->
  listens_only_on K L s ->
  In p (calls_of L (trace (perform w a s))) ->
  In p (calls_of L (trace s)) \/
  exists options, In (K, p, options) (script_commits [a]).
Proof.
  intros Hinv Hon.
  assert (forall type payload options,
    In p (calls_of L (trace (snd (store_commit type payload options s)))) ->
    In p (calls_of L (trace s)) \/ (type = K /\ payload = p)) as Hcommit.
  { intros type payload options. simpl. rewrite calls_of_app. simpl.
    rewrite calls_of_notify, in_app_iff. intros [Hin|Hin]; [now left|right].
    destruct (String.string_dec type K) as [->|Hne].
    - split; [reflexivity|]. now apply repeat_spec in Hin.
    - rewrite (registrations_none K type L s Hon Hne) in Hin. destruct Hin. }
  destruct a as [type payload options|d payload|d handler|[sub]|k v];
    simpl; unfold call; try rewrite Hinv; try (now left).
  - intros Hin. apply Hcommit in Hin as [Hin|[-> ->]]; [now left|right].
    exists options. now left.
  - intros Hin. apply Hcommit in Hin as [Hin|[-> ->]]; [now left|right].
    eexists. now left.
Qed.

(** X11. A listener whose registrations all sit on accessors of key [K]
    is only ever handed payloads that were committed under [K]: whatever
    the traffic on the store, each payload it receives is the payload of a
    wrapper call or accessor call of that traffic whose key is [K]. *)
Theorem listener_receives_only_its_commits
  (N : string) (mutations : list (string * handler)) (w : CombinedCommitter)
  (s0 s0' : Store) (K : string) (L : listener) (script : list action)
  (s : Store) (p : value) :
  wrapMutations N mutations s0 = (inr w, s0') ->
  listens_only_on K L s -> Forall (keeps K L) script ->
  In p (calls_of L (trace (run w script s))) ->
  In p (calls_of L (trace s)) \/
  exists options, In (K, p, options) (script_commits script).
Proof.
  intros Hw Hon Hall.
  pose proof (wrapMutations_invoke _ _ _ _ _ Hw) as Hinv.
  revert s Hon. induction Hall as [|a script Ha Hall IH]; intros s Hon.
  - simpl. now left.
  - rewrite run_cons. intros Hin.
    apply IH in Hin; [|now apply perform_listens_only_on].
    destruct Hin as [Hin|[o Ho]].
    + apply (perform_calls w K L a s p Hinv Hon) in Hin
        as [Hin|[o Ho]]; [now left|right].
      exists o. simpl in Ho. destruct a; simpl in *; tauto.
    + right. exists o. destruct a; simpl; auto.
Qed.

Lemma listener_receives_only_its_commits_witness :
  In item (calls_of 7 (trace empty_store)) \/
  exists options,
    In ("cart/addItem", item, options)
      (script_commits
         [Listen {| mutationKey := "cart/addItem" |} 7;
          Call {| mutationKey := "cart/addItem" |} item]).
Proof.
  apply (listener_receives_only_its_commits "cart" cart_mutations
           cart_wrapper empty_store empty_store "cart/addItem" 7).
  - reflexivity.
  - intros id K' [].
  - repeat constructor.
  - left. reflexivity.
Defined.

Lemma filter_fresh (n : nat) (subs : list (nat * subscriber)) :
  Forall (fun entry => fst entry < n) subs ->
  List.filter (fun entry => negb (Nat.eqb (fst entry) n)) subs = subs.
Proof.
  induction 1 as [|entry subs Hlt _ IH]; simpl; [reflexivity|].
  rewrite (proj2 (Nat.eqb_neq (fst entry) n)) by lia. simpl. now rewrite IH.
Qed.

Lemma perform_fresh_ids w a s :
  (invoke w = fun type payload options => store_commit type payload options) ->
  fresh_ids s -> fresh_ids (perform w a s).
Proof.
  unfold fresh_ids. intros Hinv Hf.
  destruct a as [type payload options|d payload|d handler|[sub]|k v];
    simpl; unfold call; try rewrite Hinv; simpl; try exact Hf.
  - apply Forall_app. split.
    + eapply Forall_impl; [exact Hf|]. simpl. intros entry Hlt. lia.
    + repeat constructor.
  - rewrite Forall_forall in *. intros entry Hin.
    apply list_elem_of_In, List.filter_In in Hin as [Hin _].
    apply Hf. now apply list_elem_of_In.
Qed.

Lemma run_fresh_ids w script s :
  (invoke w = fun type payload options => store_commit type payload options) ->
  fresh_ids s -> fresh_ids (run w script s).
Proof.
  intros Hinv. revert s. induction script as [|a script IH]; intros s Hf.
  - exact Hf.
  - rewrite run_cons. apply IH. now apply perform_fresh_ids.
Qed.

(** X12. Subscription numbers stay below the next one to be handed out,
    whatever the traffic on the store; so a listener registered through
    [listen] and removed again through its disposer leaves the
    subscription list, the getters and the trace exactly as they were: the
    disposer removes its own subscription and no other. *)
Theorem listen_dispose_round_trip
  (N : string) (mutations : list (string * handler)) (w : CombinedCommitter)
  (s0 s0' : Store) (script : list action) (a : deferred) (L : listener)
  (s : Store) :
  wrapMutations N mutations s0 = (inr w, s0') ->
  fresh_ids s ->
  fresh_ids (run w script s) /\
  exists d s1 s2,
    listen a L (run w script s) = (inr d, s1) /\
    dispose d s1 = (inr tt, s2) /\
    subscribers s2 = subscribers (run w script s) /\
    getters s2 = getters (run w script s) /\
    trace s2 = trace (run w script s).
Proof.
  intros Hw Hf.
  pose proof (wrapMutations_invoke _ _ _ _ _ Hw) as Hinv.
  pose proof (run_fresh_ids w script s Hinv Hf) as Hf'.
  split; [exact Hf'|]. do 3 eexists. repeat split. simpl.
  rewrite List.filter_app, (filter_fresh _ _ Hf'). cbn [List.filter fst].
  rewrite Nat.eqb_refl. simpl. now rewrite app_nil_r.
Qed.

Lemma listen_dispose_round_trip_witness :
  fresh_ids
    (run cart_wrapper [Listen {| mutationKey := "cart/addItem" |} 3]
       empty_store) /\
  exists d s1 s2,
    listen {| mutationKey := "cart/addItem" |} 7
      (run cart_wrapper [Listen {| mutationKey := "cart/addItem" |} 3]
         empty_store) = (inr d, s1) /\
    dispose d s1 = (inr tt, s2) /\
    subscribers s2 =
      subscribers
        (run cart_wrapper [Listen {| mutationKey := "cart/addItem" |} 3]
           empty_store) /\
    getters s2 =
      getters
        (run cart_wrapper [Listen {| mutationKey := "cart/addItem" |} 3]
           empty_store) /\
    trace s2 =
      trace
        (run cart_wrapper [Listen {| mutationKey := "cart/addItem" |} 3]
           empty_store).
Proof.
  apply (listen_dispose_round_trip "cart" cart_mutations cart_wrapper
           empty_store empty_store).
  - reflexivity.
  - constructor.
Defined.
